(** * conntest: fakes for package conn

    Shallow embedding of [conn/conntest/conntest.go]: the three fakes
    [RecordRaw], [Record] and [Playback], each implementing [conn.Conn].

    Conventions of the embedding.
    - The bytes of a Go [[]byte] are a [list byte].  The source inspects
      slices only through [len], [copy], [bytes.Equal] and [append], none of
      which tells a nil slice from a zero-length one, so both are the empty
      list: two logs are equal here when they hold the same byte sequences in
      the same order.
    - The two slices handed to [Tx] are the caller's, and may share memory
      with each other.  A call through the interface [conn.Conn] therefore
      gets the caller's memory and two windows on it, and returns the memory
      as the call left it.  [Playback.Tx] and [RecordRaw.Tx] read [w] and
      [len(r)] before anything is written and write through [r] only; they
      are functions of the bytes of the two slices and return the bytes of
      [r] afterwards, and [on_memory] places that result in the caller's
      memory.  [Record.Tx] reads both slices after its delegate has run and
      is written on the memory itself.
    - The records of a log are owned by the fake that holds the log; they
      share no memory with the caller's buffers.
    - A Go [int] is a [Z]; slice lengths are always in range.
    - A Go [error] is an [option error], [None] being the nil error.
    - A method with a pointer receiver takes the receiver's state and returns
      an [outcome]: the receiver's state after the call, what the call
      produced, and the error.
    - Every method holds the receiver's [Lock] from entry to exit, so a call
      is one atomic step; the mutex itself carries no data and has no field
      in the embedded structs. *)

From Stdlib Require Import ZArith List Lia.
From Stdlib Require Import Strings.String Strings.Byte.
From stdpp Require Import base list.

Local Open Scope string_scope.
Local Open Scope list_scope.
Local Open Scope nat_scope.

(** ** Go builtins on slices *)

(** [len(s)] *)
Definition len {A : Type} (s : list A) : Z := Z.of_nat (length s).

(** [make([]byte, n)]: [n] zero bytes. *)
Definition make (n : Z) : list byte := replicate (Z.to_nat n) x00.

(** [copy(dst, src)]: overwrites the first [min(len(dst), len(src))] elements
    of [dst]; the result is the content of [dst] afterwards. *)
Fixpoint copy (dst src : list byte) : list byte :=
  match dst, src with
  | _ :: dst', b :: src' => b :: copy dst' src'
  | _, _ => dst
  end.

(** [append(s, x)] *)
Definition append {A : Type} (s : list A) (x : A) : list A := s ++ [x].

(** [bytes.Equal(a, b)]: same length and same bytes. *)
Fixpoint bytes_Equal (a b : list byte) : bool :=
  match a, b with
  | [], [] => true
  | x :: a', y :: b' => Byte.eqb x y && bytes_Equal a' b'
  | _, _ => false
  end.

(** ** Errors *)

(** An operand of a [fmt.Errorf] format string. *)
Inductive fmt_arg : Type :=
| ArgBytes (b : list byte)
| ArgInt (n : Z).

(** The error values the package builds: [errors.New(text)] and
    [fmt.Errorf(format, args...)]. *)
Inductive error : Type :=
| errors_New (text : string)
| fmt_Errorf (format : string) (args : list fmt_arg).

(** What a method call leaves behind. *)
Record outcome (S A : Type) : Type := Outcome {
  self : S;            (* the receiver after the call *)
  out : A;             (* the returned count, or the read buffer afterwards *)
  err : option error   (* the returned error *)
}.
Arguments Outcome {S A} _ _ _.
Arguments self {S A} _.
Arguments out {S A} _.
Arguments err {S A} _.

(** ** The interfaces the package depends on *)

Module io.
(** [io.Writer].  Its contract forbids [Write] to modify the slice it is
    given, so a write returns the sink, the count and the error only. *)
Class Writer (W : Type) : Type := {
  Write : W -> list byte -> outcome W Z
}.
End io.

(** ** The caller's memory

    A slice is a window on an array: [size] elements starting [off] elements
    into it.  [view m s] are the bytes seen through [s], as many of them as
    the memory holds; [store m s bs] is the memory after [copy(s, bs)]. *)
Record window : Type := Win { off : nat; size : nat }.

Definition view (m : list byte) (s : window) : list byte :=
  take (size s) (drop (off s) m).

Definition store (m : list byte) (s : window) (bs : list byte) : list byte :=
  take (off s) m ++ copy (view m s) bs ++ drop (off s + size s) m.

(** The slice that is all of [d], and the nil slice. *)
Definition whole (d : list byte) : window := Win 0 (length d).

Definition no_bytes : window := Win 0 0.

(** A method that works on the bytes of [w] and [r] and writes through [r]
    only, seen from the caller's memory. *)
Definition on_memory {S : Type}
    (tx : list byte -> list byte -> outcome S (list byte))
    (m : list byte) (w r : window) : outcome S (list byte) :=
  let res := tx (view m w) (view m r) in
  Outcome (self res) (store m r (out res)) (err res).

Module conn.
(** [conn.Conn]: [fmt.Stringer], [io.Writer] and [Tx].  [Tx c m w r] is the
    call [c.Tx(w, r)] with the slices [w] and [r] being windows on the
    caller's memory [m]; the implementation may overwrite what it can reach,
    and [out] is the memory when the call returns.  It cannot make the
    caller's memory longer or shorter, which is the law [Tx_len]. *)
Class Conn (C : Type) : Type := {
  String : C -> string;
  Write : C -> list byte -> outcome C Z;
  Tx : C -> list byte -> window -> window -> outcome C (list byte);
  Tx_len : forall c m w r, length (out (Tx c m w r)) = length m
}.
End conn.

(** ** IO

    [IO] registers the I/O that happened on either a real or fake
    connection. *)
Record IO : Type := mkIO {
  Write : list byte;
  Read : list byte
}.

(** ** RecordRaw

    Sends everything written to it to [W]. *)
Module RecordRaw.
Section WithWriter.
Context {Wt : Type} `{!io.Writer Wt}.

Record t : Type := mk { W : Wt }.

Definition String (r : t) : string := "recordraw".

Definition Write (r : t) (b : list byte) : outcome t Z :=
  let res := io.Write (W r) b in
  Outcome (mk (self res)) (out res) (err res).

Definition Tx (r : t) (w read : list byte) : outcome t (list byte) :=
  if negb (len read =? 0)%Z then
    Outcome r read (Some (errors_New "not implemented"))
  else
    let res := Write r w in
    Outcome (self res) read (err res).
End WithWriter.
Arguments t Wt : clear implicits.
End RecordRaw.

(** ** Record

    Records everything written to it.  [Conn] can be nil ([None]) if only
    writes are being recorded; when present it refers to a connection whose
    state the delegated call advances. *)
Module Record.
Section WithConn.
Context {C : Type} `{!conn.Conn C}.

Record t : Type := mk { Conn : option C; Ops : list IO }.

Definition String (r : t) : string := "record".

(** Lines 84-91 of [Tx]: build the [IO] from copies of both slices and append
    it.  [r] and [m] are the recorder and the caller's memory as the first
    half of [Tx] left them, so [view m w] and [view m read] are the bytes of
    [w] and [read] at the time of the copies. *)
Definition Tx_log (r : t) (m : list byte) (w read : window)
  : outcome t (list byte) :=
  let io_Write := make (len (view m w)) in
  let io_Read :=
    if negb (len (view m read) =? 0)%Z then make (len (view m read)) else []
  in
  let io_Write := copy io_Write (view m w) in
  let io_Read := copy io_Read (view m read) in
  Outcome (mk (Conn r) (append (Ops r) (mkIO io_Write io_Read))) m None.

Definition Tx (r : t) (m : list byte) (w read : window)
  : outcome t (list byte) :=
  match Conn r with
  | None =>
      if negb (len (view m read) =? 0)%Z then
        Outcome r m
          (Some (errors_New "read unsupported when no bus is connected"))
      else Tx_log r m w read
  | Some c =>
      let res := conn.Tx c m w read in
      let r' := mk (Some (self res)) (Ops r) in
      match err res with
      | Some e => Outcome r' (out res) (Some e)
      | None => Tx_log r' (out res) w read
      end
  end.

(** [r.Tx(d, nil)]: the memory of the call is [d], [w] is all of it and
    [read] is the nil slice.  [Write] returns a count and an error; what
    [Tx] left in [d] is not among its results. *)
Definition Write (r : t) (d : list byte) : outcome t Z :=
  let res := Tx r d (whole d) no_bytes in
  match err res with
  | Some e => Outcome (self res) 0%Z (Some e)
  | None => Outcome (self res) (len d) None
  end.
End WithConn.
Arguments t C : clear implicits.
End Record.

(** ** Playback

    Plays back a recorded I/O flow. *)
Module Playback.
Record t : Type := mk { Ops : list IO }.

Definition String (p : t) : string := "playback".

(** The match on [Ops p] is the test [len(p.Ops) == 0]; in the second
    branch [op0] is [p.Ops[0]] and [rest] is [p.Ops[1:]]. *)
Definition Tx (p : t) (w r : list byte) : outcome t (list byte) :=
  match Ops p with
  | [] => Outcome p r (Some (errors_New "unexpected Tx()"))
  | op0 :: rest =>
      if negb (bytes_Equal (Write op0) w) then
        Outcome p r
          (Some (fmt_Errorf "unexpected write %#v != %#v"
                   [ArgBytes w; ArgBytes (Write op0)]))
      else if negb (len (Read op0) =? len r)%Z then
        Outcome p r
          (Some (fmt_Errorf "unexpected read buffer length %d != %d"
                   [ArgInt (len r); ArgInt (len (Read op0))]))
      else
        Outcome (mk rest) (copy r (Read op0)) None
  end.

Definition Write (p : t) (d : list byte) : outcome t Z :=
  let res := Tx p d [] in
  match err res with
  | Some e => Outcome (self res) 0%Z (Some e)
  | None => Outcome (self res) (len d) None
  end.
End Playback.

(** ** Facts about the builtins *)

Lemma len_nil {A : Type} : len (@nil A) = 0%Z.
Proof. reflexivity. Qed.

Lemma len_eqb_0 {A : Type} (s : list A) : (len s =? 0)%Z = true <-> s = [].
Proof.
  unfold len. rewrite Z.eqb_eq. destruct s as [|x s]; simpl.
  - split; reflexivity.
  - split; [lia | discriminate].
Qed.

Lemma len_eqb_len {A B : Type} (s : list A) (s' : list B) :
  (len s =? len s')%Z = true <-> length s = length s'.
Proof. unfold len. rewrite Z.eqb_eq. lia. Qed.

Lemma make_len {A : Type} (s : list A) : make (len s) = replicate (length s) x00.
Proof. unfold make, len. now rewrite Nat2Z.id. Qed.

Lemma copy_length (dst src : list byte) : length (copy dst src) = length dst.
Proof.
  revert src. induction dst as [|d dst IH]; intros [|b src]; simpl; auto.
Qed.

Lemma copy_nil_r (dst : list byte) : copy dst [] = dst.
Proof. destruct dst; reflexivity. Qed.

(** Copying over a buffer of exactly the source's length leaves the source's
    bytes in it. *)
Lemma copy_full (dst src : list byte) :
  length dst = length src -> copy dst src = src.
Proof.
  revert src. induction dst as [|d dst IH]; intros [|b src] Hlen;
    simpl in *; try discriminate; auto.
  f_equal. apply IH. lia.
Qed.

Lemma copy_make (s : list byte) : copy (make (len s)) s = s.
Proof. apply copy_full. rewrite make_len. apply length_replicate. Qed.

Lemma bytes_Equal_eq (a b : list byte) : bytes_Equal a b = true <-> a = b.
Proof.
  revert b. induction a as [|x a IH]; intros [|y b]; simpl;
    try (split; [discriminate | congruence]); [tauto|].
  rewrite andb_true_iff, IH. split.
  - intros [Hxy ->]. apply byte_dec_bl in Hxy. now subst.
  - intros [= -> ->]. split; [now apply byte_dec_lb | reflexivity].
Qed.

Lemma bytes_Equal_refl (a : list byte) : bytes_Equal a a = true.
Proof. now apply bytes_Equal_eq. Qed.


(** ** Facts about the caller's memory *)

Lemma view_length (m : list byte) (s : window) :
  length (view m s) = Nat.min (size s) (length m - off s).
Proof. unfold view. now rewrite length_take, length_drop. Qed.

Lemma view_length_same (m m' : list byte) (s : window) :
  length m' = length m -> length (view m' s) = length (view m s).
Proof. intros Hlen. now rewrite !view_length, Hlen. Qed.

Lemma view_whole (d : list byte) : view d (whole d) = d.
Proof. unfold view, whole. simpl. apply firstn_all. Qed.

Lemma view_no_bytes (m : list byte) : view m no_bytes = [].
Proof. reflexivity. Qed.

Lemma copy_self (bs : list byte) : copy bs bs = bs.
Proof. now apply copy_full. Qed.

Lemma copy_nil_l (bs : list byte) : copy [] bs = [].
Proof. reflexivity. Qed.

(** The three parts [store] is built from. *)
Lemma memory_split (m : list byte) (s : window) :
  take (off s) m ++ view m s ++ drop (off s + size s) m = m.
Proof.
  unfold view. rewrite <- drop_drop.
  now rewrite (take_drop (size s)), (take_drop (off s)).
Qed.

Lemma store_length (m : list byte) (s : window) (bs : list byte) :
  length (store m s bs) = length m.
Proof.
  unfold store. rewrite <- (memory_split m s) at 4.
  rewrite !length_app. now rewrite copy_length.
Qed.

(** Writing back what is there changes nothing. *)
Lemma store_view (m : list byte) (s : window) : store m s (view m s) = m.
Proof. unfold store. rewrite copy_self. apply memory_split. Qed.

Lemma store_nil (m : list byte) (s : window) (bs : list byte) :
  view m s = [] -> store m s bs = m.
Proof.
  intros Hnil. rewrite <- (memory_split m s) at 2. unfold store.
  now rewrite Hnil.
Qed.

(** What was stored is what the window shows. *)
Lemma view_store (m : list byte) (s : window) (bs : list byte) :
  view (store m s bs) s = copy (view m s) bs.
Proof.
  pose proof (copy_length (view m s) bs) as Hc.
  pose proof (view_length m s) as Hv.
  unfold store. unfold view at 1.
  destruct (Nat.le_gt_cases (off s) (length m)) as [Hle|Hgt].
  - rewrite drop_app_length' by (rewrite length_take; lia).
    destruct (Nat.le_gt_cases (size s) (length m - off s)) as [Hin|Hout].
    + rewrite take_app_length' by lia. reflexivity.
    + rewrite (drop_ge m) by lia. rewrite app_nil_r.
      apply take_ge. lia.
  - assert (Hnil : view m s = []).
    { apply length_zero_iff_nil. lia. }
    rewrite Hnil. cbn [copy app]. rewrite (drop_ge m) by lia.
    rewrite app_nil_r, (take_ge m) by lia. rewrite drop_ge by lia.
    apply take_nil.
Qed.

Lemma view_store_full (m : list byte) (s : window) (bs : list byte) :
  length bs = length (view m s) -> view (store m s bs) s = bs.
Proof. intros Hlen. rewrite view_store. now apply copy_full. Qed.

(** ** The fakes implement [conn.Conn]

    The declarations [var _ conn.Conn = &RecordRaw{}] and the like. *)

Lemma RecordRaw_Tx_len {Wt : Type} `{!io.Writer Wt}
    (r : RecordRaw.t Wt) (w read : list byte) :
  length (out (RecordRaw.Tx r w read)) = length read.
Proof. unfold RecordRaw.Tx. now destruct (negb _). Qed.

Lemma Playback_Tx_len (p : Playback.t) (w r : list byte) :
  length (out (Playback.Tx p w r)) = length r.
Proof.
  unfold Playback.Tx. destruct (Playback.Ops p) as [|op0 rest]; [reflexivity|].
  destruct (negb (bytes_Equal _ _)); [reflexivity|].
  destruct (negb (len _ =? len _)%Z); [reflexivity|].
  apply copy_length.
Qed.

Lemma on_memory_len {S : Type}
    (tx : list byte -> list byte -> outcome S (list byte))
    (m : list byte) (w r : window) :
  length (out (on_memory tx m w r)) = length m.
Proof. apply store_length. Qed.

Lemma Record_Tx_len {C : Type} `{!conn.Conn C}
    (r : Record.t C) (m : list byte) (w read : window) :
  length (out (Record.Tx r m w read)) = length m.
Proof.
  unfold Record.Tx, Record.Tx_log. destruct (Record.Conn r) as [c|].
  - cbv zeta. destruct (err (conn.Tx c m w read)); apply conn.Tx_len.
  - now destruct (negb _).
Qed.

#[global] Instance RecordRaw_Conn {Wt : Type} `{!io.Writer Wt} :
  conn.Conn (RecordRaw.t Wt) :=
  {| conn.String := RecordRaw.String;
     conn.Write := RecordRaw.Write;
     conn.Tx r := on_memory (RecordRaw.Tx r);
     conn.Tx_len r := on_memory_len (RecordRaw.Tx r) |}.

#[global] Instance Playback_Conn : conn.Conn Playback.t :=
  {| conn.String := Playback.String;
     conn.Write := Playback.Write;
     conn.Tx p := on_memory (Playback.Tx p);
     conn.Tx_len p := on_memory_len (Playback.Tx p) |}.

#[global] Instance Record_Conn {C : Type} `{!conn.Conn C} :
  conn.Conn (Record.t C) :=
  {| conn.String := Record.String;
     conn.Write := Record.Write;
     conn.Tx := Record.Tx;
     conn.Tx_len := Record_Tx_len |}.

(** ** Driving a connection

    A [call] is one [Tx(w, r)] as the caller makes it: the caller's memory at
    that moment and the two slices.  [apart w r] is the call with two buffers
    that share nothing, [same buf] the call [Tx(buf, buf)]. *)
Record call : Type := Call { mem : list byte; wr : window; rd : window }.

Definition written (k : call) : list byte := view (mem k) (wr k).

Definition to_read (k : call) : list byte := view (mem k) (rd k).

Definition apart (w r : list byte) : call :=
  Call (w ++ r) (Win 0 (length w)) (Win (length w) (length r)).

Definition same (buf : list byte) : call :=
  Call buf (whole buf) (whole buf).

(** [replay c calls] makes the calls in order on the connection [c]; it
    returns the connection afterwards and, per call, the caller's memory
    after the call and the error. *)
Fixpoint replay {C : Type} `{!conn.Conn C} (c : C) (calls : list call)
  : C * list (list byte * option error) :=
  match calls with
  | [] => (c, [])
  | k :: calls' =>
      let res := conn.Tx c (mem k) (wr k) (rd k) in
      let rest := replay (self res) calls' in
      (fst rest, (out res, err res) :: snd rest)
  end.

(** The transaction a call stands for, and the call a logged transaction
    stands for when the buffers share nothing. *)
Definition io_of (k : call) : IO := mkIO (written k) (to_read k).

Definition call_of (t : IO) : call := apart (Write t) (Read t).

(** Reading a run.  [reads calls outs] are the bytes of the read buffers
    after the calls; [succeeded outs] counts the calls that returned no
    error; [logged calls outs] lists, for those calls, the bytes of the two
    slices as the call left them. *)
Definition reads (calls : list call)
    (outs : list (list byte * option error)) : list (list byte) :=
  zip_with (fun k o => view (fst o) (rd k)) calls outs.

Fixpoint succeeded (outs : list (list byte * option error)) : nat :=
  match outs with
  | [] => 0
  | (_, None) :: outs' => S (succeeded outs')
  | (_, Some _) :: outs' => succeeded outs'
  end.

Fixpoint logged (calls : list call)
    (outs : list (list byte * option error)) : list IO :=
  match calls, outs with
  | k :: calls', (m, None) :: outs' =>
      mkIO (view m (wr k)) (view m (rd k)) :: logged calls' outs'
  | _ :: calls', (_, Some _) :: outs' => logged calls' outs'
  | _, _ => []
  end.

(** A logged transaction fits a call when it has the call's write bytes and
    read bytes as long as the call's read buffer: the two tests of
    [Playback.Tx]. *)
Definition fits (t : IO) (k : call) : Prop :=
  Write t = written k /\ length (Read t) = length (to_read k).

(** Two slices that share no element. *)
Definition no_overlap (a b : window) : Prop :=
  off a + size a <= off b \/ off b + size b <= off a.

(** The write buffers of the calls that ask for no read, in order. *)
Fixpoint forwarded (calls : list call) : list (list byte) :=
  match calls with
  | [] => []
  | k :: calls' =>
      if (len (to_read k) =? 0)%Z then written k :: forwarded calls'
      else forwarded calls'
  end.

(** [write_all s bs] writes the buffers [bs] to the sink [s] one after the
    other, whatever each write returns, and gives the sink afterwards. *)
Fixpoint write_all {Wt : Type} `{!io.Writer Wt} (s : Wt)
    (bs : list (list byte)) : Wt :=
  match bs with
  | [] => s
  | b :: bs' => write_all (self (io.Write s b)) bs'
  end.

(** A sink for the examples: [bytes.Buffer], whose [Write] appends the bytes
    and reports them all written. *)
#[global] Instance Buffer_Writer : io.Writer (list byte) :=
  {| io.Write buf p := Outcome (buf ++ p) (len p) None |}.

(** ** The fakes at work *)

(** [RecordRaw.Write] hands the bytes to the sink and returns what the sink
    returns. *)
Example RecordRaw_Write_forwards :
  RecordRaw.Write (RecordRaw.mk [x10]) [x01; x02] =
    Outcome (RecordRaw.mk [x10; x01; x02]) 2%Z None.
Proof. reflexivity. Qed.

Example RecordRaw_Tx_writes :
  RecordRaw.Tx (RecordRaw.mk [x10]) [x01; x02] [] =
    Outcome (RecordRaw.mk [x10; x01; x02]) [] None.
Proof. reflexivity. Qed.

(** A player with one record: the matching call fills the read buffer, the
    next call finds the log empty. *)
Example Playback_one_record :
  replay (Playback.mk [mkIO [x01] [xaa]])
    [apart [x01] [x00]; apart [x01] [x00]] =
    (Playback.mk [],
     [([x01; xaa], None); ([x01; x00], Some (errors_New "unexpected Tx()"))]).
Proof. reflexivity. Qed.

Example Playback_read_length_mismatch :
  Playback.Tx (Playback.mk [mkIO [] [x00; x00]]) [] [x00] =
    Outcome (Playback.mk [mkIO [] [x00; x00]]) [x00]
      (Some (fmt_Errorf "unexpected read buffer length %d != %d"
               [ArgInt 1; ArgInt 2])).
Proof. reflexivity. Qed.

(** A recorder in front of a player: the delegate's answer is logged. *)
Example Record_over_Playback :
  Record.Tx (Record.mk (Some (Playback.mk [mkIO [x01] [xaa]])) [])
    [x01; x00] (Win 0 1) (Win 1 1) =
    Outcome (Record.mk (Some (Playback.mk [])) [mkIO [x01] [xaa]])
      [x01; xaa] None.
Proof. reflexivity. Qed.

(** The same exchange made as [Tx(buf, buf)]: the player answers into the
    buffer that holds the write bytes, and the recorder, which copies [w]
    after the player has returned, logs the answer as write bytes too. *)
Example Record_over_Playback_same_buffer :
  Record.Tx (Record.mk (Some (Playback.mk [mkIO [x01] [xaa]])) [])
    [x01] (whole [x01]) (whole [x01]) =
    Outcome (Record.mk (Some (Playback.mk [])) [mkIO [xaa] [xaa]])
      [xaa] None.
Proof. reflexivity. Qed.

Example Record_Write_without_conn :
  Record.Write (Record.mk (C:=Playback.t) None []) [x01; x02] =
    Outcome (Record.mk None [mkIO [x01; x02] []]) 2%Z None.
Proof. reflexivity. Qed.

(** ** Behaviour of [Playback.Tx], case by case *)

Section PlaybackTx.
Variables (op0 : IO) (rest : list IO) (w r : list byte).

Lemma Playback_Tx_nil (p : Playback.t) :
  Playback.Ops p = [] ->
  Playback.Tx p w r = Outcome p r (Some (errors_New "unexpected Tx()")).
Proof. unfold Playback.Tx. now intros ->. Qed.

Lemma Playback_Tx_write_mismatch (p : Playback.t) :
  Playback.Ops p = op0 :: rest ->
  Write op0 <> w ->
  Playback.Tx p w r =
    Outcome p r
      (Some (fmt_Errorf "unexpected write %#v != %#v"
               [ArgBytes w; ArgBytes (Write op0)])).
Proof.
  unfold Playback.Tx. intros -> Hne.
  destruct (bytes_Equal (Write op0) w) eqn:E; [|reflexivity].
  apply bytes_Equal_eq in E. contradiction.
Qed.

Lemma Playback_Tx_read_mismatch (p : Playback.t) :
  Playback.Ops p = op0 :: rest ->
  Write op0 = w ->
  length (Read op0) <> length r ->
  Playback.Tx p w r =
    Outcome p r
      (Some (fmt_Errorf "unexpected read buffer length %d != %d"
               [ArgInt (len r); ArgInt (len (Read op0))])).
Proof.
  unfold Playback.Tx. intros -> <- Hne. rewrite bytes_Equal_refl. simpl.
  destruct (len (Read op0) =? len r)%Z eqn:E; [|reflexivity].
  apply len_eqb_len in E. contradiction.
Qed.

Lemma Playback_Tx_ok (p : Playback.t) :
  Playback.Ops p = op0 :: rest ->
  Write op0 = w ->
  length (Read op0) = length r ->
  Playback.Tx p w r = Outcome (Playback.mk rest) (Read op0) None.
Proof.
  unfold Playback.Tx. intros -> <- Hlen. rewrite bytes_Equal_refl. simpl.
  apply len_eqb_len in Hlen as E. rewrite E. simpl.
  now rewrite copy_full.
Qed.
End PlaybackTx.

(** A failing [Playback.Tx] returns the player and the buffer it was given. *)
Lemma Playback_Tx_failed (p : Playback.t) (w r : list byte) :
  err (Playback.Tx p w r) <> None ->
  self (Playback.Tx p w r) = p /\ out (Playback.Tx p w r) = r.
Proof.
  unfold Playback.Tx. destruct (Playback.Ops p) as [|op0 rest]; [now split|].
  destruct (negb (bytes_Equal _ _)); [now split|].
  destruct (negb (len _ =? len _)%Z); [now split|].
  simpl. congruence.
Qed.

(** A call on a player through the interface. *)
Lemma Playback_conn_Tx (p : Playback.t) (k : call) :
  conn.Tx p (mem k) (wr k) (rd k) =
    let res := Playback.Tx p (written k) (to_read k) in
    Outcome (self res) (store (mem k) (rd k) (out res)) (err res).
Proof. reflexivity. Qed.

(** ** Theorems about the player *)

(** C2. When the log of a player is not empty, the bytes written equal the
    head record's write bytes and the read buffer is as long as the head
    record's read bytes, [Playback.Tx] returns no error, leaves the head
    record's read bytes in the caller's buffer and the tail of the log in the
    player, which is one record shorter. *)
Theorem Playback_Tx_match (p : Playback.t) (op0 : IO) (rest : list IO)
    (w r : list byte) :
  Playback.Ops p = op0 :: rest ->
  w = Write op0 ->
  len r = len (Read op0) ->
  let res := Playback.Tx p w r in
  err res = None /\
  out res = Read op0 /\
  Playback.Ops (self res) = rest /\
  (len (Playback.Ops (self res)) = len (Playback.Ops p) - 1)%Z.
Proof.
  intros Hops Hw Hlen res. subst res.
  rewrite (Playback_Tx_ok op0 rest w r p Hops); simpl.
  - repeat split. rewrite Hops. unfold len. simpl length. lia.
  - congruence.
  - unfold len in Hlen. lia.
Qed.

Lemma Playback_Tx_match_witness :
  let p := Playback.mk [mkIO [x01] [xaa]] in
  let res := Playback.Tx p [x01] [x00] in
  err res = None /\ out res = [xaa] /\ Playback.Ops (self res) = [] /\
  (len (Playback.Ops (self res)) = len (Playback.Ops p) - 1)%Z.
Proof.
  exact (Playback_Tx_match (Playback.mk [mkIO [x01] [xaa]])
           (mkIO [x01] [xaa]) [] [x01] [x00] eq_refl eq_refl eq_refl).
Defined.

(** C3. On a player whose log is empty every [Playback.Tx] fails with the
    error "unexpected Tx()" and returns the player as it was, log still
    empty; hence any series of calls on it fails call after call, leaves the
    caller's memory as it was and ends in the same player. *)
Theorem Playback_exhausted (p : Playback.t) :
  Playback.Ops p = [] ->
  (forall w r,
     Playback.Tx p w r = Outcome p r (Some (errors_New "unexpected Tx()"))) /\
  (forall calls,
     replay p calls =
       (p, map (fun k => (mem k, Some (errors_New "unexpected Tx()"))) calls)).
Proof.
  intros Hnil. split.
  - intros w r. now apply Playback_Tx_nil.
  - induction calls as [|k calls IH]; [reflexivity|].
    cbn [replay map]. rewrite (Playback_conn_Tx p k).
    rewrite (Playback_Tx_nil _ _ p Hnil). cbn [self out err].
    now rewrite IH, store_view.
Qed.

Lemma Playback_exhausted_witness :
  (forall w r,
     Playback.Tx (Playback.mk []) w r =
       Outcome (Playback.mk []) r (Some (errors_New "unexpected Tx()"))) /\
  (forall calls,
     replay (Playback.mk []) calls =
       (Playback.mk [],
        map (fun k => (mem k, Some (errors_New "unexpected Tx()"))) calls)).
Proof. exact (Playback_exhausted (Playback.mk []) eq_refl). Defined.

(** C4. A [Playback.Tx] whose write bytes differ from the head record's, or
    whose read buffer has another length than the head record's read bytes,
    fails (with the write error if the bytes differ, with the length error
    otherwise) and returns the player unchanged: same records, same order,
    same number of them. *)
Theorem Playback_Tx_mismatch_keeps_log (p : Playback.t) (op0 : IO)
    (rest : list IO) (w r : list byte) :
  Playback.Ops p = op0 :: rest ->
  Write op0 <> w \/ length (Read op0) <> length r ->
  let res := Playback.Tx p w r in
  err res =
    Some (if bytes_Equal (Write op0) w
          then fmt_Errorf "unexpected read buffer length %d != %d"
                 [ArgInt (len r); ArgInt (len (Read op0))]
          else fmt_Errorf "unexpected write %#v != %#v"
                 [ArgBytes w; ArgBytes (Write op0)]) /\
  self res = p /\
  Playback.Ops (self res) = op0 :: rest /\
  length (Playback.Ops (self res)) = length (Playback.Ops p).
Proof.
  intros Hops Hmis res. subst res.
  destruct (bytes_Equal (Write op0) w) eqn:E.
  - apply bytes_Equal_eq in E. destruct Hmis as [Hne|Hne]; [contradiction|].
    rewrite (Playback_Tx_read_mismatch op0 rest w r p Hops E Hne). simpl.
    now rewrite Hops.
  - assert (Hne : Write op0 <> w).
    { intros Heq. apply bytes_Equal_eq in Heq. congruence. }
    rewrite (Playback_Tx_write_mismatch op0 rest w r p Hops Hne). simpl.
    now rewrite Hops.
Qed.

Lemma Playback_Tx_mismatch_keeps_log_witness :
  let p := Playback.mk [mkIO [x01; x02] []] in
  let res := Playback.Tx p [x01; x03] [] in
  err res =
    Some (fmt_Errorf "unexpected write %#v != %#v"
            [ArgBytes [x01; x03]; ArgBytes [x01; x02]]) /\
  self res = p /\
  Playback.Ops (self res) = [mkIO [x01; x02] []] /\
  length (Playback.Ops (self res)) = 1.
Proof.
  refine (Playback_Tx_mismatch_keeps_log (Playback.mk [mkIO [x01; x02] []])
            (mkIO [x01; x02] []) [] [x01; x03] [] eq_refl _).
  left. simpl. discriminate.
Defined.

(** C10. Whatever makes [Playback.Tx] fail (empty log, other write bytes,
    other read length), the caller's read buffer holds after the call what it
    held before. *)
Theorem Playback_Tx_failure_keeps_buffer (p : Playback.t) (w r : list byte) :
  err (Playback.Tx p w r) <> None ->
  out (Playback.Tx p w r) = r.
Proof. intros Hfail. now apply Playback_Tx_failed. Qed.

Lemma Playback_Tx_failure_keeps_buffer_witness :
  out (Playback.Tx (Playback.mk [mkIO [] [x00; x00]]) [] [x07]) = [x07].
Proof.
  apply (Playback_Tx_failure_keeps_buffer
           (Playback.mk [mkIO [] [x00; x00]]) [] [x07]).
  simpl. discriminate.
Defined.

(** ** Behaviour of [Record.Tx] *)

Section RecordTx.
Context {C : Type} `{!conn.Conn C}.
Implicit Types (r : Record.t C) (m : list byte) (w read : window).

(** The second half of [Tx] logs the bytes of the two slices as they are. *)
Lemma Record_Tx_log_eq r m w read :
  Record.Tx_log r m w read =
    Outcome
      (Record.mk (Record.Conn r)
         (Record.Ops r ++ [mkIO (view m w) (view m read)]))
      m None.
Proof.
  unfold Record.Tx_log, append. rewrite copy_make.
  destruct (len (view m read) =? 0)%Z eqn:E; simpl.
  - apply len_eqb_0 in E. now rewrite E.
  - now rewrite copy_make.
Qed.

Lemma Record_Tx_nil_conn r m w read :
  Record.Conn r = None ->
  Record.Tx r m w read =
    if negb (len (view m read) =? 0)%Z
    then Outcome r m
           (Some (errors_New "read unsupported when no bus is connected"))
    else Outcome
           (Record.mk None (Record.Ops r ++ [mkIO (view m w) (view m read)]))
           m None.
Proof.
  intros Hnil. unfold Record.Tx. rewrite Hnil.
  destruct (negb _); [reflexivity|].
  now rewrite Record_Tx_log_eq, Hnil.
Qed.

Lemma Record_Tx_some_conn r c m w read :
  Record.Conn r = Some c ->
  Record.Tx r m w read =
    let res := conn.Tx c m w read in
    match err res with
    | Some e =>
        Outcome (Record.mk (Some (self res)) (Record.Ops r)) (out res)
          (Some e)
    | None =>
        Outcome
          (Record.mk (Some (self res))
             (Record.Ops r ++
                [mkIO (view (out res) w) (view (out res) read)]))
          (out res) None
    end.
Proof.
  intros Hc. unfold Record.Tx. rewrite Hc. cbv zeta.
  destruct (err (conn.Tx c m w read)); [reflexivity|].
  now rewrite Record_Tx_log_eq.
Qed.

(** One [Tx] either keeps the log or adds one record at its end: the bytes
    the two slices hold when the call returns. *)
Lemma Record_Tx_step r m w read :
  let res := Record.Tx r m w read in
  match err res with
  | Some _ => Record.Ops (self res) = Record.Ops r
  | None =>
      Record.Ops (self res) =
        Record.Ops r ++ [mkIO (view (out res) w) (view (out res) read)]
  end.
Proof.
  cbv zeta. destruct (Record.Conn r) as [c|] eqn:Hc.
  - rewrite (Record_Tx_some_conn r c m w read Hc). cbv zeta.
    now destruct (err (conn.Tx c m w read)).
  - rewrite (Record_Tx_nil_conn r m w read Hc). now destruct (negb _).
Qed.

(** Without a connection [Tx] leaves the caller's memory alone. *)
Lemma Record_Tx_nil_conn_out r m w read :
  Record.Conn r = None -> out (Record.Tx r m w read) = m.
Proof.
  intros Hnil. rewrite (Record_Tx_nil_conn r m w read Hnil).
  now destruct (negb _).
Qed.
End RecordTx.

(** ** Theorems about the recorders *)

(** C5. When a recorder has an underlying connection and that connection's
    [Tx] returns an error, [Record.Tx] returns this very error and the log of
    the recorder is what it was before the call. *)
Theorem Record_Tx_conn_error {C : Type} `{!conn.Conn C}
    (r : Record.t C) (c : C) (m : list byte) (w read : window) (e : error) :
  Record.Conn r = Some c ->
  err (conn.Tx c m w read) = Some e ->
  err (Record.Tx r m w read) = Some e /\
  Record.Ops (self (Record.Tx r m w read)) = Record.Ops r.
Proof.
  intros Hc He. rewrite (Record_Tx_some_conn r c m w read Hc). cbv zeta.
  now rewrite He.
Qed.

Lemma Record_Tx_conn_error_witness :
  let r := Record.mk (Some (Playback.mk [])) [] in
  err (Record.Tx r [x01; x00] (Win 0 1) (Win 1 1)) =
    Some (errors_New "unexpected Tx()") /\
  Record.Ops (self (Record.Tx r [x01; x00] (Win 0 1) (Win 1 1))) = [].
Proof.
  exact (Record_Tx_conn_error (Record.mk (Some (Playback.mk [])) [])
           (Playback.mk []) [x01; x00] (Win 0 1) (Win 1 1)
           (errors_New "unexpected Tx()") eq_refl eq_refl).
Defined.

(** C6. With a read buffer that is not empty, [RecordRaw.Tx] fails with
    "not implemented" and leaves the sink as it was, and [Record.Tx] on a
    recorder without underlying connection fails with "read unsupported when
    no bus is connected" and leaves the recorder, hence its log, as it was;
    both leave the caller's buffers alone. *)
Theorem Tx_read_unsupported {Wt C : Type} `{!io.Writer Wt} `{!conn.Conn C}
    (raw : RecordRaw.t Wt) (w r : list byte)
    (ops : list IO) (m : list byte) (ww rw : window) :
  r <> [] ->
  view m rw <> [] ->
  RecordRaw.Tx raw w r = Outcome raw r (Some (errors_New "not implemented")) /\
  Record.Tx (Record.mk (C:=C) None ops) m ww rw =
    Outcome (Record.mk None ops) m
      (Some (errors_New "read unsupported when no bus is connected")).
Proof.
  assert (E : forall s : list byte, s <> [] -> (len s =? 0)%Z = false).
  { intros s Hs. destruct (len s =? 0)%Z eqn:E; [|reflexivity].
    apply len_eqb_0 in E. contradiction. }
  intros Hr Hrw. split.
  - unfold RecordRaw.Tx. now rewrite (E r Hr).
  - rewrite Record_Tx_nil_conn by reflexivity. now rewrite (E _ Hrw).
Qed.

Lemma Tx_read_unsupported_witness :
  RecordRaw.Tx (RecordRaw.mk [x10]) [x01] [x00] =
    Outcome (RecordRaw.mk [x10]) [x00] (Some (errors_New "not implemented")) /\
  Record.Tx (Record.mk (C:=Playback.t) None []) [x01; x00]
    (Win 0 1) (Win 1 1) =
    Outcome (Record.mk None []) [x01; x00]
      (Some (errors_New "read unsupported when no bus is connected")).
Proof.
  apply (Tx_read_unsupported (RecordRaw.mk [x10]) [x01] [x00] []
           [x01; x00] (Win 0 1) (Win 1 1)); discriminate.
Defined.

(** C7. When [Record.Tx] returns no error, the log afterwards is the log
    before followed by one record, made of the bytes of [w] and the bytes of
    [read] copied when the call returns: both slices keep their length, so
    the read bytes are empty when [read] is; and without underlying
    connection nothing has touched the caller's memory, so these are the
    bytes passed in. *)
Theorem Record_Tx_appends {C : Type} `{!conn.Conn C}
    (r : Record.t C) (m : list byte) (w read : window) :
  err (Record.Tx r m w read) = None ->
  let res := Record.Tx r m w read in
  Record.Ops (self res) =
    Record.Ops r ++ [mkIO (view (out res) w) (view (out res) read)] /\
  length (view (out res) w) = length (view m w) /\
  length (view (out res) read) = length (view m read) /\
  (Record.Conn r = None -> out res = m).
Proof.
  intros Hok res. subst res. repeat split.
  - pose proof (Record_Tx_step r m w read) as Hstep. cbv zeta in Hstep.
    now rewrite Hok in Hstep.
  - apply view_length_same, Record_Tx_len.
  - apply view_length_same, Record_Tx_len.
  - apply Record_Tx_nil_conn_out.
Qed.

Lemma Record_Tx_appends_witness :
  let r := Record.mk (Some (Playback.mk [mkIO [x01] [xaa]])) [mkIO [x09] []] in
  let res := Record.Tx r [x01] (whole [x01]) (whole [x01]) in
  Record.Ops (self res) = [mkIO [x09] []] ++ [mkIO [xaa] [xaa]] /\
  length (view (out res) (whole [x01])) = 1 /\
  length (view (out res) (whole [x01])) = 1 /\
  (Record.Conn r = None -> out res = [x01]).
Proof.
  exact (Record_Tx_appends
           (Record.mk (Some (Playback.mk [mkIO [x01] [xaa]])) [mkIO [x09] []])
           [x01] (whole [x01]) (whole [x01]) eq_refl).
Defined.

(** [Write] leaves the receiver as [Tx(d, nil)] leaves it. *)
Lemma Record_Write_self {C : Type} `{!conn.Conn C}
    (r : Record.t C) (d : list byte) :
  self (Record.Write r d) = self (Record.Tx r d (whole d) no_bytes).
Proof. unfold Record.Write. cbv zeta. now destruct (err _). Qed.

Lemma Playback_Write_self (p : Playback.t) (d : list byte) :
  self (Playback.Write p d) = self (Playback.Tx p d []).
Proof. unfold Playback.Write. cbv zeta. now destruct (err _). Qed.

(** C8. [Write(d)] on a recorder or on a player is [Tx(d, nil)]: it leaves the
    receiver as that [Tx] does and returns its error; the count returned is
    [len(d)] when the error is nil and 0 otherwise. *)
Theorem Write_is_Tx {C : Type} `{!conn.Conn C}
    (r : Record.t C) (p : Playback.t) (d : list byte) :
  (self (Record.Write r d) = self (Record.Tx r d (whole d) no_bytes) /\
   err (Record.Write r d) = err (Record.Tx r d (whole d) no_bytes) /\
   out (Record.Write r d) =
     match err (Record.Tx r d (whole d) no_bytes) with
     | None => len d
     | Some _ => 0%Z
     end) /\
  (self (Playback.Write p d) = self (Playback.Tx p d []) /\
   err (Playback.Write p d) = err (Playback.Tx p d []) /\
   out (Playback.Write p d) =
     match err (Playback.Tx p d []) with None => len d | Some _ => 0%Z end).
Proof.
  split; (split; [|split]).
  - apply Record_Write_self.
  - unfold Record.Write. cbv zeta. now destruct (err (Record.Tx r d _ _)).
  - unfold Record.Write. cbv zeta. now destruct (err (Record.Tx r d _ _)).
  - apply Playback_Write_self.
  - unfold Playback.Write. cbv zeta. now destruct (err (Playback.Tx p d [])).
  - unfold Playback.Write. cbv zeta. now destruct (err (Playback.Tx p d [])).
Qed.

(** One [Playback.Tx] either keeps the log or drops its first record. *)
Lemma Playback_Tx_step (p : Playback.t) (w r : list byte) :
  let res := Playback.Tx p w r in
  match err res with
  | Some _ => Playback.Ops (self res) = Playback.Ops p
  | None => exists op0, Playback.Ops p = op0 :: Playback.Ops (self res)
  end.
Proof.
  cbv zeta. unfold Playback.Tx.
  destruct (Playback.Ops p) as [|op0 rest] eqn:Hops; simpl; [assumption|].
  destruct (negb (bytes_Equal _ _)); simpl; [assumption|].
  destruct (negb (len _ =? len _)%Z); simpl; [assumption|].
  now exists op0.
Qed.

(** C9. Each operation moves the log one way only.  [Tx] and [Write] on a
    recorder return a log that is the one before or the one before with one
    record added at the end; [Tx] and [Write] on a player return a log that
    is the one before or the one before without its first record. *)
Theorem log_direction {C : Type} `{!conn.Conn C}
    (r : Record.t C) (p : Playback.t)
    (m : list byte) (ww rw : window) (w read d : list byte) :
  (Record.Ops (self (Record.Tx r m ww rw)) = Record.Ops r \/
   exists op, Record.Ops (self (Record.Tx r m ww rw)) = Record.Ops r ++ [op]) /\
  (Record.Ops (self (Record.Write r d)) = Record.Ops r \/
   exists op, Record.Ops (self (Record.Write r d)) = Record.Ops r ++ [op]) /\
  (Playback.Ops (self (Playback.Tx p w read)) = Playback.Ops p \/
   exists op,
     Playback.Ops p = op :: Playback.Ops (self (Playback.Tx p w read))) /\
  (Playback.Ops (self (Playback.Write p d)) = Playback.Ops p \/
   exists op,
     Playback.Ops p = op :: Playback.Ops (self (Playback.Write p d))).
Proof.
  assert (HR : forall m' w' read',
    Record.Ops (self (Record.Tx r m' w' read')) = Record.Ops r \/
    exists op,
      Record.Ops (self (Record.Tx r m' w' read')) = Record.Ops r ++ [op]).
  { intros m' w' read'. pose proof (Record_Tx_step r m' w' read') as Hstep.
    cbv zeta in Hstep. destruct (err (Record.Tx r m' w' read')); eauto. }
  assert (HP : forall w' read',
    Playback.Ops (self (Playback.Tx p w' read')) = Playback.Ops p \/
    exists op,
      Playback.Ops p = op :: Playback.Ops (self (Playback.Tx p w' read'))).
  { intros w' read'. pose proof (Playback_Tx_step p w' read') as Hstep.
    cbv zeta in Hstep. destruct (err (Playback.Tx p w' read')); eauto. }
  rewrite Record_Write_self, Playback_Write_self. auto.
Qed.

(** Over any series of calls the log of a recorder extends the log it
    started with, and the log of a player is a tail of the log it started
    with. *)
Lemma Record_replay_prefix {C : Type} `{!conn.Conn C}
    (calls : list call) (r : Record.t C) :
  Record.Ops r `prefix_of` Record.Ops (fst (replay r calls)).
Proof.
  revert r. induction calls as [|k calls IH]; intros r; [done|].
  cbn [replay fst]. etransitivity; [|apply IH].
  change (conn.Tx r (mem k) (wr k) (rd k))
    with (Record.Tx r (mem k) (wr k) (rd k)).
  pose proof (Record_Tx_step r (mem k) (wr k) (rd k)) as Hstep.
  cbv zeta in Hstep.
  destruct (err (Record.Tx r (mem k) (wr k) (rd k))); rewrite Hstep;
    [done | apply prefix_app_r; done].
Qed.

Lemma Playback_replay_suffix (calls : list call) (p : Playback.t) :
  Playback.Ops (fst (replay p calls)) `suffix_of` Playback.Ops p.
Proof.
  revert p. induction calls as [|k calls IH]; intros p; [done|].
  cbn [replay fst]. etransitivity; [apply IH|].
  rewrite Playback_conn_Tx. cbv zeta. cbn [self].
  pose proof (Playback_Tx_step p (written k) (to_read k)) as Hstep.
  cbv zeta in Hstep.
  destruct (err (Playback.Tx p (written k) (to_read k))).
  - now rewrite Hstep.
  - destruct Hstep as [op0 ->]. now apply suffix_cons_r.
Qed.

(** ** Recording, then playing back *)

(** Every transaction is carried by a call: the one with two buffers that
    share nothing. *)
Lemma io_of_call_of (t : IO) : io_of (call_of t) = t.
Proof.
  destruct t as [w r]. unfold io_of, call_of, apart, written, to_read, view.
  cbn [mem wr rd off size Write Read]. rewrite drop_0.
  rewrite take_app_length, drop_app_length. now rewrite firstn_all.
Qed.

(** A recorder without underlying connection logs a series of calls that ask
    for no read as it is; every call succeeds and leaves the caller's memory
    alone. *)
Lemma Record_replay_writes {C : Type} `{!conn.Conn C}
    (calls : list call) (ops : list IO) :
  Forall (fun k => to_read k = []) calls ->
  replay (Record.mk (C:=C) None ops) calls =
    (Record.mk None (ops ++ map io_of calls),
     map (fun k => (mem k, None)) calls).
Proof.
  intros Hcalls. revert ops.
  induction Hcalls as [|k calls Hk _ IH]; intros ops.
  - simpl. now rewrite app_nil_r.
  - cbn [map replay].
    change (conn.Tx (Record.mk (C:=C) None ops) (mem k) (wr k) (rd k))
      with (Record.Tx (Record.mk (C:=C) None ops) (mem k) (wr k) (rd k)).
    rewrite Record_Tx_nil_conn by reflexivity.
    unfold to_read in Hk. rewrite Hk.
    change (len (@nil byte)) with 0%Z. cbn [Z.eqb negb self out err].
    rewrite IH. cbn [fst snd Record.Ops]. rewrite <- app_assoc.
    unfold io_of at 2, to_read. now rewrite Hk.
Qed.

(** A player fed calls that fit the head of its log consumes that head,
    succeeds at every call and puts the logged read bytes into the read
    buffers. *)
Lemma Playback_replay_fits (ts rest : list IO) (calls : list call) :
  Forall2 fits ts calls ->
  replay (Playback.mk (ts ++ rest)) calls =
    (Playback.mk rest,
     zip_with (fun t k => (store (mem k) (rd k) (Read t), None)) ts calls).
Proof.
  intros Hfits. induction Hfits as [|t k ts calls [Hw Hlen] _ IH];
    [reflexivity|].
  cbn [replay zip_with app]. rewrite Playback_conn_Tx. cbv zeta.
  rewrite (Playback_Tx_ok t (ts ++ rest)) by auto.
  cbn [self out err]. now rewrite IH.
Qed.

(** The calls of a log's own transactions fit it, and replaying them writes
    back what the read buffers hold. *)
Lemma Playback_replay_log (calls : list call) (rest : list IO) :
  replay (Playback.mk (map io_of calls ++ rest)) calls =
    (Playback.mk rest, map (fun k => (mem k, None)) calls).
Proof.
  induction calls as [|k calls IH]; [reflexivity|].
  cbn [map replay app]. rewrite Playback_conn_Tx. cbv zeta.
  rewrite (Playback_Tx_ok (io_of k) (map io_of calls ++ rest))
    by reflexivity.
  cbn [self out err io_of Read]. unfold to_read. rewrite store_view.
  now rewrite IH.
Qed.

Lemma reads_unchanged (calls : list call) (e : call -> option error) :
  reads calls (map (fun k => (mem k, e k)) calls) = map to_read calls.
Proof.
  unfold reads. induction calls as [|k calls IH]; [reflexivity|].
  cbn [map zip_with fst]. now rewrite IH.
Qed.

(** C1. Let [ts] be transactions whose read bytes are all empty, and [calls]
    any calls that carry them.  Making these calls in order on a new recorder
    without underlying connection succeeds at every call and leaves the log
    equal to [ts].  Making the same calls on a player that starts with this
    log succeeds at every call and returns, call by call, the read bytes that
    were recorded, which are also the read outputs of the recording run. *)
Theorem record_playback_round_trip {C : Type} `{!conn.Conn C}
    (ts : list IO) (calls : list call) :
  map io_of calls = ts ->
  Forall (fun t => Read t = []) ts ->
  let recorded := replay (Record.mk (C:=C) None []) calls in
  let played := replay (Playback.mk (Record.Ops (fst recorded))) calls in
  Record.Ops (fst recorded) = ts /\
  Forall (fun o => snd o = None) (snd recorded) /\
  Forall (fun o => snd o = None) (snd played) /\
  reads calls (snd played) = map Read (Record.Ops (fst recorded)) /\
  reads calls (snd played) = reads calls (snd recorded).
Proof.
  intros Hts Hreads recorded played. subst played recorded.
  assert (Hcalls : Forall (fun k => to_read k = []) calls).
  { subst ts. rewrite Forall_map in Hreads. exact Hreads. }
  rewrite (Record_replay_writes calls [] Hcalls).
  cbn [fst snd Record.Ops app].
  pose proof (Playback_replay_log calls []) as Hplay.
  rewrite app_nil_r in Hplay. rewrite Hplay. cbn [snd].
  rewrite reads_unchanged. subst ts. repeat split.
  - apply Forall_map, Forall_forall. reflexivity.
  - apply Forall_map, Forall_forall. reflexivity.
  - now rewrite map_map.
Qed.

Lemma record_playback_round_trip_witness :
  let ts := [mkIO [x01; x02] []; mkIO [] []; mkIO [x03] []] in
  let calls := map call_of ts in
  let recorded := replay (Record.mk (C:=Playback.t) None []) calls in
  let played := replay (Playback.mk (Record.Ops (fst recorded))) calls in
  Record.Ops (fst recorded) = ts /\
  Forall (fun o => snd o = None) (snd recorded) /\
  Forall (fun o => snd o = None) (snd played) /\
  reads calls (snd played) = map Read (Record.Ops (fst recorded)) /\
  reads calls (snd played) = reads calls (snd recorded).
Proof.
  apply (record_playback_round_trip (C:=Playback.t)
           [mkIO [x01; x02] []; mkIO [] []; mkIO [x03] []]
           (map call_of [mkIO [x01; x02] []; mkIO [] []; mkIO [x03] []])).
  - reflexivity.
  - repeat constructor.
Defined.

(** ** Further properties of the player *)

(** A call the player accepts found a first record that fits it. *)
Lemma Playback_Tx_ok_inv (p : Playback.t) (w r : list byte) :
  err (Playback.Tx p w r) = None ->
  exists op0 rest,
    Playback.Ops p = op0 :: rest /\ Write op0 = w /\
    length (Read op0) = length r.
Proof.
  unfold Playback.Tx.
  destruct (Playback.Ops p) as [|op0 rest]; [discriminate|].
  destruct (bytes_Equal (Write op0) w) eqn:Ew; [|discriminate].
  destruct (len (Read op0) =? len r)%Z eqn:El; [|discriminate].
  intros _. exists op0, rest.
  apply bytes_Equal_eq in Ew. apply len_eqb_len in El. auto.
Qed.

(** X1. [Playback.Tx] returns no error exactly when the log has a first
    record, the bytes written are that record's write bytes and the read
    buffer is as long as that record's read bytes. *)
Theorem Playback_Tx_ok_iff (p : Playback.t) (w r : list byte) :
  err (Playback.Tx p w r) = None <->
  exists op0 rest,
    Playback.Ops p = op0 :: rest /\ Write op0 = w /\
    length (Read op0) = length r.
Proof.
  split.
  - apply Playback_Tx_ok_inv.
  - intros (op0 & rest & Hops & Hw & Hlen).
    now rewrite (Playback_Tx_ok op0 rest w r p Hops Hw Hlen).
Qed.

(** X2. [Playback.Write(d)] returns no error exactly when the first record of
    the log has the write bytes [d] and no read bytes; and whenever the log
    starts with that record, [Write(d)] drops it and returns [len(d)] and no
    error. *)
Theorem Playback_Write_ok_iff (p : Playback.t) (d : list byte) :
  (err (Playback.Write p d) = None <->
   exists rest, Playback.Ops p = mkIO d [] :: rest) /\
  (forall rest,
     Playback.Ops p = mkIO d [] :: rest ->
     Playback.Write p d = Outcome (Playback.mk rest) (len d) None).
Proof.
  assert (Hok : forall rest,
    Playback.Ops p = mkIO d [] :: rest ->
    Playback.Write p d = Outcome (Playback.mk rest) (len d) None).
  { intros rest Hops. unfold Playback.Write.
    now rewrite (Playback_Tx_ok (mkIO d []) rest d [] p Hops). }
  split; [split|exact Hok].
  - intros Herr.
    assert (Htx : err (Playback.Tx p d []) = None).
    { revert Herr. unfold Playback.Write. cbv zeta.
      now destruct (err (Playback.Tx p d [])). }
    apply Playback_Tx_ok_inv in Htx as ([w0 r0] & rest & Hops & Hw & Hlen).
    cbn [Write Read] in Hw, Hlen. subst w0.
    apply length_zero_iff_nil in Hlen. subst r0. now exists rest.
  - intros [rest Hops]. now rewrite (Hok rest Hops).
Qed.

(** X3. Over any series of calls a player drops from the front of its log as
    many records as calls succeeded: the log afterwards is the log before
    without its first [succeeded] records, and the successes and the records
    left add up to the records it started with. *)
Theorem Playback_replay_consumes (p : Playback.t) (calls : list call) :
  Playback.Ops (fst (replay p calls)) =
    drop (succeeded (snd (replay p calls))) (Playback.Ops p) /\
  (succeeded (snd (replay p calls)) +
     length (Playback.Ops (fst (replay p calls))) =
   length (Playback.Ops p)).
Proof.
  revert p. induction calls as [|k calls IH]; intros p.
  - split; reflexivity.
  - cbn [replay fst snd succeeded]. rewrite Playback_conn_Tx. cbv zeta.
    cbn [self out err].
    pose proof (Playback_Tx_step p (written k) (to_read k)) as Hstep.
    cbv zeta in Hstep.
    destruct (IH (self (Playback.Tx p (written k) (to_read k))))
      as [IHd IHn].
    destruct (err (Playback.Tx p (written k) (to_read k))).
    + rewrite Hstep in IHd, IHn. now split.
    + destruct Hstep as [op0 Hops]. rewrite Hops. cbn [drop length].
      split; [exact IHd | lia].
Qed.

(** X4. Retrying a call the player refused is refused again in the same way:
    the player and the read buffer are as before the first attempt, so the
    second attempt returns what the first returned. *)
Theorem Playback_Tx_failure_repeats (p : Playback.t) (w r : list byte) :
  err (Playback.Tx p w r) <> None ->
  Playback.Tx (self (Playback.Tx p w r)) w (out (Playback.Tx p w r)) =
    Playback.Tx p w r.
Proof.
  intros Hfail. destruct (Playback_Tx_failed p w r Hfail) as [-> ->].
  reflexivity.
Qed.

Lemma Playback_Tx_failure_repeats_witness :
  let p := Playback.mk [mkIO [x01; x02] [x00]] in
  Playback.Tx (self (Playback.Tx p [x01] [x07]))
    [x01] (out (Playback.Tx p [x01] [x07])) =
    Playback.Tx p [x01] [x07].
Proof.
  apply (Playback_Tx_failure_repeats (Playback.mk [mkIO [x01; x02] [x00]])
           [x01] [x07]).
  simpl. discriminate.
Defined.

(** A run without error on a player was made of calls that fit the head of
    its log. *)
Lemma Playback_replay_ok_inv (calls : list call) (p : Playback.t) :
  Forall (fun o => snd o = None) (snd (replay p calls)) ->
  exists ts rest, Playback.Ops p = ts ++ rest /\ Forall2 fits ts calls.
Proof.
  revert p. induction calls as [|k calls IH]; intros p Hok.
  - exists [], (Playback.Ops p). split; [reflexivity | constructor].
  - cbn [replay snd] in Hok. apply Forall_cons in Hok as [Hhd Htl].
    rewrite Playback_conn_Tx in Hhd, Htl. cbv zeta in Hhd, Htl.
    cbn [snd self err] in Hhd, Htl.
    apply Playback_Tx_ok_inv in Hhd as (op0 & rest0 & Hops & Hw & Hlen).
    rewrite (Playback_Tx_ok op0 rest0 _ _ p Hops Hw Hlen) in Htl.
    cbn [self] in Htl.
    destruct (IH _ Htl) as (ts & rest & Hrest & Hall).
    cbn [Playback.Ops] in Hrest. subst rest0.
    exists (op0 :: ts), rest. split; [exact Hops|].
    constructor; [split; assumption | exact Hall].
Qed.

(** X5. A series of calls is accepted by a player, every call returning no
    error, exactly when the log starts with one record per call that fits
    the call; and whenever it does, the player ends with the rest of the log,
    every call returns no error and leaves its record's read bytes in the
    read buffer. *)
Theorem Playback_replay_ok_iff (p : Playback.t) (calls : list call) :
  (Forall (fun o => snd o = None) (snd (replay p calls)) <->
   exists ts rest, Playback.Ops p = ts ++ rest /\ Forall2 fits ts calls) /\
  (forall ts rest,
     Playback.Ops p = ts ++ rest ->
     Forall2 fits ts calls ->
     replay p calls =
       (Playback.mk rest,
        zip_with (fun t k => (store (mem k) (rd k) (Read t), None))
          ts calls)).
Proof.
  assert (Hok : forall ts rest,
    Playback.Ops p = ts ++ rest ->
    Forall2 fits ts calls ->
    replay p calls =
      (Playback.mk rest,
       zip_with (fun t k => (store (mem k) (rd k) (Read t), None))
         ts calls)).
  { intros ts rest Hops Hfits. destruct p as [ops].
    cbn [Playback.Ops] in Hops. subst ops.
    now apply Playback_replay_fits. }
  split; [split|exact Hok].
  - apply Playback_replay_ok_inv.
  - intros (ts & rest & Hops & Hfits). rewrite (Hok ts rest Hops Hfits).
    cbn [snd]. clear Hok Hops. induction Hfits as [|t k ts calls _ _ IH];
      constructor; [reflexivity | exact IH].
Qed.

(** ** Further properties of the recorder *)

(** X6. [Record.Tx] returns an error exactly when the recorder has no
    underlying connection and the read buffer is not empty, or it has one and
    that connection's [Tx] returns an error. *)
Theorem Record_Tx_fails_iff {C : Type} `{!conn.Conn C}
    (r : Record.t C) (m : list byte) (w read : window) :
  err (Record.Tx r m w read) <> None <->
  (Record.Conn r = None /\ view m read <> []) \/
  (exists c, Record.Conn r = Some c /\ err (conn.Tx c m w read) <> None).
Proof.
  destruct (Record.Conn r) as [c|] eqn:Hc.
  - rewrite (Record_Tx_some_conn r c m w read Hc). cbv zeta. split.
    + intros Hfail. right. exists c. split; [reflexivity|].
      now destruct (err (conn.Tx c m w read)).
    + intros [[Habs _] | (c' & [= <-] & Hfail)]; [discriminate|].
      now destruct (err (conn.Tx c m w read)).
  - rewrite (Record_Tx_nil_conn r m w read Hc). split.
    + destruct (len (view m read) =? 0)%Z eqn:E; simpl; [congruence|].
      intros _. left. split; [reflexivity|]. intros Hnil.
      rewrite Hnil in E. discriminate.
    + intros [[_ Hne] | (c' & Habs & _)]; [|discriminate].
      destruct (len (view m read) =? 0)%Z eqn:E; simpl; [|discriminate].
      apply len_eqb_0 in E. contradiction.
Qed.

(** X7. On a recorder without underlying connection [Write(d)] always
    succeeds: it returns [len(d)] and no error, and the log gains the record
    with write bytes [d] and no read bytes. *)
Theorem Record_Write_nil_conn {C : Type} `{!conn.Conn C}
    (ops : list IO) (d : list byte) :
  Record.Write (Record.mk (C:=C) None ops) d =
    Outcome (Record.mk None (ops ++ [mkIO d []])) (len d) None.
Proof.
  unfold Record.Write. rewrite Record_Tx_nil_conn by reflexivity.
  rewrite view_no_bytes, view_whole. reflexivity.
Qed.

(** With a connection behind it, [Record.Tx] returns what the connection
    returns and logs the exchange unless the connection failed. *)
Lemma Record_Tx_mk_some {C : Type} `{!conn.Conn C}
    (c : C) (ops : list IO) (m : list byte) (w read : window) :
  Record.Tx (Record.mk (Some c) ops) m w read =
    let res := conn.Tx c m w read in
    Outcome
      (Record.mk (Some (self res))
         (match err res with
          | Some _ => ops
          | None => ops ++ [mkIO (view (out res) w) (view (out res) read)]
          end))
      (out res) (err res).
Proof.
  rewrite (Record_Tx_some_conn (Record.mk (Some c) ops) c m w read)
    by reflexivity.
  cbv zeta. now destruct (err (conn.Tx c m w read)).
Qed.

(** X8. A recorder in front of a connection is transparent to the caller:
    over any series of calls, each call returns the error the connection
    alone would have returned and leaves the caller's memory as the
    connection alone would have left it, and the connection ends in the state
    it would have reached alone. *)
Theorem Record_replay_transparent {C : Type} `{!conn.Conn C}
    (c : C) (ops : list IO) (calls : list call) :
  snd (replay (Record.mk (Some c) ops) calls) = snd (replay c calls) /\
  Record.Conn (fst (replay (Record.mk (Some c) ops) calls)) =
    Some (fst (replay c calls)).
Proof.
  revert c ops. induction calls as [|k calls IH]; intros c ops.
  - split; reflexivity.
  - cbn [replay fst snd].
    change (conn.Tx (Record.mk (Some c) ops) (mem k) (wr k) (rd k))
      with (Record.Tx (Record.mk (Some c) ops) (mem k) (wr k) (rd k)).
    rewrite Record_Tx_mk_some. cbv zeta. cbn [self out err].
    match goal with
    | |- context [replay (Record.mk (Some ?c') ?ops') calls] =>
        destruct (IH c' ops') as [-> ->]
    end.
    split; reflexivity.
Qed.

(** X9. Over any series of calls the log of a recorder, with or without
    underlying connection, is the log it started with followed by one record
    per call that returned no error, in call order: the bytes the call's two
    slices hold when the call returns.  Calls that failed leave no trace. *)
Theorem Record_replay_log {C : Type} `{!conn.Conn C}
    (r : Record.t C) (calls : list call) :
  Record.Ops (fst (replay r calls)) =
    Record.Ops r ++ logged calls (snd (replay r calls)).
Proof.
  revert r. induction calls as [|k calls IH]; intros r.
  - simpl. now rewrite app_nil_r.
  - cbn [replay fst snd logged].
    change (conn.Tx r (mem k) (wr k) (rd k))
      with (Record.Tx r (mem k) (wr k) (rd k)).
    rewrite IH. pose proof (Record_Tx_step r (mem k) (wr k) (rd k)) as Hstep.
    cbv zeta in Hstep.
    destruct (err (Record.Tx r (mem k) (wr k) (rd k))); rewrite Hstep.
    + reflexivity.
    + now rewrite <- app_assoc.
Qed.

(** X10. A recorder without underlying connection stays without one, and if
    no record of its log has read bytes then, whatever calls are made, no
    record of its log ever has. *)
Theorem Record_nil_conn_reads_empty {C : Type} `{!conn.Conn C}
    (r : Record.t C) (calls : list call) :
  Record.Conn r = None ->
  Forall (fun t => Read t = []) (Record.Ops r) ->
  Record.Conn (fst (replay r calls)) = None /\
  Forall (fun t => Read t = []) (Record.Ops (fst (replay r calls))).
Proof.
  revert r. induction calls as [|k calls IH]; intros r Hnil Hlog.
  - now split.
  - cbn [replay fst].
    change (conn.Tx r (mem k) (wr k) (rd k))
      with (Record.Tx r (mem k) (wr k) (rd k)).
    apply IH; rewrite (Record_Tx_nil_conn r _ _ _ Hnil);
      destruct (len (view (mem k) (rd k)) =? 0)%Z eqn:E;
      cbn [negb self Record.Conn Record.Ops];
      try assumption; try reflexivity.
    apply len_eqb_0 in E.
    apply Forall_app. split; [assumption|]. now constructor.
Qed.

Lemma Record_nil_conn_reads_empty_witness :
  let r := Record.mk (C:=Playback.t) None [mkIO [x09] []] in
  let calls := [apart [x01] []; apart [x02] [x00]; same []] in
  Record.Conn (fst (replay r calls)) = None /\
  Forall (fun t => Read t = []) (Record.Ops (fst (replay r calls))).
Proof.
  apply (Record_nil_conn_reads_empty
           (Record.mk (C:=Playback.t) None [mkIO [x09] []])
           [apart [x01] []; apart [x02] [x00]; same []]).
  - reflexivity.
  - repeat constructor.
Defined.

(** ** Recorder and player together *)

(** Outside the window [store] changes nothing. *)
Lemma store_lookup_outside (m : list byte) (s : window) (bs : list byte)
    (i : nat) :
  i < off s \/ off s + size s <= i ->
  store m s bs !! i = m !! i.
Proof.
  intros Hout.
  destruct (Nat.le_gt_cases (length m) i) as [Hge|Hlt].
  - rewrite !lookup_ge_None_2; [reflexivity | lia |].
    rewrite store_length. lia.
  - pose proof (copy_length (view m s) bs) as Hc.
    pose proof (view_length m s) as Hv. unfold store.
    destruct Hout as [Hbefore|Hafter].
    + rewrite lookup_app_l by (rewrite length_take; lia).
      rewrite lookup_take. now destruct (decide (i < off s)); [|lia].
    + rewrite lookup_app_r by (rewrite length_take; lia).
      rewrite lookup_app_r by (rewrite length_take; lia).
      rewrite lookup_drop. f_equal. rewrite length_take. lia.
Qed.

Lemma view_lookup (m : list byte) (s : window) (i : nat) :
  view m s !! i = if decide (i < size s) then m !! (off s + i) else None.
Proof. unfold view. rewrite lookup_take, lookup_drop. reflexivity. Qed.

(** Writing through one slice does not show through a slice that shares
    nothing with it. *)
Lemma view_store_no_overlap (m : list byte) (s t : window)
    (bs : list byte) :
  no_overlap s t -> view (store m s bs) t = view m t.
Proof.
  intros Hno. apply list_eq. intros i. rewrite !view_lookup.
  destruct (decide (i < size t)); [|reflexivity].
  apply store_lookup_outside. unfold no_overlap in Hno. lia.
Qed.

(** What a recorder adds to its log over a run without error, in which the
    bytes of every [w] were left as passed, feeds a player through the same
    run with the same answers. *)
Lemma record_then_playback_aux {C : Type} `{!conn.Conn C}
    (calls : list call) (r : Record.t C) :
  Forall (fun o => snd o = None) (snd (replay r calls)) ->
  Forall2 (fun k o => view (fst o) (wr k) = written k)
    calls (snd (replay r calls)) ->
  exists added,
    Record.Ops (fst (replay r calls)) = Record.Ops r ++ added /\
    forall rest,
      fst (replay (Playback.mk (added ++ rest)) calls) = Playback.mk rest /\
      Forall (fun o => snd o = None)
        (snd (replay (Playback.mk (added ++ rest)) calls)) /\
      reads calls (snd (replay (Playback.mk (added ++ rest)) calls)) =
        reads calls (snd (replay r calls)).
Proof.
  revert r. induction calls as [|k calls IH]; intros r Hok Hw.
  - exists []. split; [simpl; now rewrite app_nil_r|].
    intros rest. repeat split. constructor.
  - cbn [replay fst snd] in *.
    change (conn.Tx r (mem k) (wr k) (rd k))
      with (Record.Tx r (mem k) (wr k) (rd k)) in *.
    apply Forall_cons in Hok as [Hhd Htl]. cbn [snd] in Hhd.
    apply Forall2_cons in Hw as [Hwk Hws]. cbn [fst] in Hwk.
    pose proof (Record_Tx_step r (mem k) (wr k) (rd k)) as Hstep.
    cbv zeta in Hstep. rewrite Hhd in Hstep.
    pose proof (Record_Tx_len r (mem k) (wr k) (rd k)) as Hlen.
    set (m' := out (Record.Tx r (mem k) (wr k) (rd k))) in *.
    destruct (IH _ Htl Hws) as (added & Hadded & Hplay).
    exists (mkIO (view m' (wr k)) (view m' (rd k)) :: added). split.
    + rewrite Hadded, Hstep. now rewrite <- app_assoc.
    + intros rest. cbn [app]. rewrite Playback_conn_Tx. cbv zeta.
      rewrite (Playback_Tx_ok (mkIO (view m' (wr k)) (view m' (rd k)))
                 (added ++ rest));
        [| reflexivity | exact Hwk | now apply view_length_same].
      cbn [self out err Read fst snd].
      destruct (Hplay rest) as (Hfst & Hoks & Hreads).
      split; [exact Hfst|]. split; [now constructor|].
      unfold reads in *. cbn [zip_with fst]. rewrite Hreads. f_equal.
      apply view_store_full. now apply view_length_same.
Qed.

(** X11. Record, then play back, with or without a connection behind the
    recorder.  If a series of calls on a recorder that starts with an empty
    log returns no error, and every call left the bytes of its [w] as they
    were passed, then a player given the recorder's log accepts the same
    series of calls, leaves in each read buffer the bytes the recorded call
    left there, and ends with an empty log. *)
Theorem record_then_playback {C : Type} `{!conn.Conn C}
    (conn0 : option C) (calls : list call) :
  Forall (fun o => snd o = None) (snd (replay (Record.mk conn0 []) calls)) ->
  Forall2 (fun k o => view (fst o) (wr k) = written k)
    calls (snd (replay (Record.mk conn0 []) calls)) ->
  let log := Record.Ops (fst (replay (Record.mk conn0 []) calls)) in
  Playback.Ops (fst (replay (Playback.mk log) calls)) = [] /\
  Forall (fun o => snd o = None) (snd (replay (Playback.mk log) calls)) /\
  reads calls (snd (replay (Playback.mk log) calls)) =
    reads calls (snd (replay (Record.mk conn0 []) calls)).
Proof.
  intros Hok Hw log. subst log.
  destruct (record_then_playback_aux calls _ Hok Hw) as (added & -> & Hplay).
  cbn [Record.Ops app]. specialize (Hplay []). rewrite app_nil_r in Hplay.
  destruct Hplay as (-> & Hoks & Hreads). now repeat split.
Qed.

Lemma record_then_playback_witness :
  let device := Playback.mk [mkIO [x01] [xaa; xbb]; mkIO [x02] []] in
  let calls := [apart [x01] [x00; x00]; apart [x02] []] in
  let log := Record.Ops (fst (replay (Record.mk (Some device) []) calls)) in
  Playback.Ops (fst (replay (Playback.mk log) calls)) = [] /\
  Forall (fun o => snd o = None) (snd (replay (Playback.mk log) calls)) /\
  reads calls (snd (replay (Playback.mk log) calls)) =
    reads calls (snd (replay (Record.mk (Some device) []) calls)).
Proof.
  apply (record_then_playback
           (Some (Playback.mk [mkIO [x01] [xaa; xbb]; mkIO [x02] []]))
           [apart [x01] [x00; x00]; apart [x02] []]).
  - repeat constructor.
  - repeat constructor.
Defined.

(** X12. Play back, then record.  A recorder placed in front of a player,
    and given calls that fit the head of the player's log and whose two
    slices share no element, appends exactly that head of the log to its own
    log while the player consumes it; every call succeeds and leaves the
    logged read bytes in the read buffer. *)
Theorem playback_then_record (ts rest ops : list IO) (calls : list call) :
  Forall2 (fun t k => fits t k /\ no_overlap (rd k) (wr k)) ts calls ->
  replay (Record.mk (Some (Playback.mk (ts ++ rest))) ops) calls =
    (Record.mk (Some (Playback.mk rest)) (ops ++ ts),
     zip_with (fun t k => (store (mem k) (rd k) (Read t), None)) ts calls).
Proof.
  intros Hall. revert ops.
  induction Hall as [|t k ts calls [[Hw Hlen] Hno] _ IH]; intros ops.
  - simpl. now rewrite app_nil_r.
  - cbn [replay zip_with app].
    change (conn.Tx (Record.mk ?c ?o) (mem k) (wr k) (rd k))
      with (Record.Tx (Record.mk c o) (mem k) (wr k) (rd k)).
    rewrite Record_Tx_mk_some. cbv zeta. rewrite Playback_conn_Tx. cbv zeta.
    rewrite (Playback_Tx_ok t (ts ++ rest)) by auto.
    cbn [self out err]. rewrite IH. cbn [fst snd].
    rewrite <- app_assoc. cbn [app].
    rewrite (view_store_no_overlap _ _ _ _ Hno).
    rewrite view_store_full by exact Hlen.
    destruct t as [wt rt]. cbn [Write Read] in *.
    unfold written in Hw. now rewrite <- Hw.
Qed.

Lemma playback_then_record_witness :
  replay
    (Record.mk
       (Some (Playback.mk ([mkIO [x01] [xaa]; mkIO [x02] []] ++ [mkIO [] []])))
       [])
    [apart [x01] [x00]; apart [x02] []] =
    (Record.mk (Some (Playback.mk [mkIO [] []]))
       ([] ++ [mkIO [x01] [xaa]; mkIO [x02] []]),
     zip_with (fun t k => (store (mem k) (rd k) (Read t), None))
       [mkIO [x01] [xaa]; mkIO [x02] []]
       [apart [x01] [x00]; apart [x02] []]).
Proof.
  apply (playback_then_record [mkIO [x01] [xaa]; mkIO [x02] []]
           [mkIO [] []] [] [apart [x01] [x00]; apart [x02] []]).
  repeat (constructor;
          [split; [split; reflexivity | right; simpl; lia]|]).
  constructor.
Defined.

(** ** Further properties of the raw recorder *)

(** X13. Over any series of calls a raw recorder hands to its sink the write
    buffers of the calls that ask for no read, in call order, and nothing
    else; it goes on writing after a write the sink refused; and it never
    changes the caller's memory. *)
Theorem RecordRaw_replay_forwards {Wt : Type} `{!io.Writer Wt}
    (raw : RecordRaw.t Wt) (calls : list call) :
  RecordRaw.W (fst (replay raw calls)) =
    write_all (RecordRaw.W raw) (forwarded calls) /\
  map fst (snd (replay raw calls)) = map mem calls.
Proof.
  revert raw. induction calls as [|k calls IH]; intros raw.
  - split; reflexivity.
  - cbn [replay fst snd map forwarded].
    change (conn.Tx raw (mem k) (wr k) (rd k))
      with (on_memory (RecordRaw.Tx raw) (mem k) (wr k) (rd k)).
    unfold on_memory, RecordRaw.Tx, RecordRaw.Write. fold (to_read k).
    fold (written k).
    destruct (len (to_read k) =? 0)%Z; cbn [negb self out err write_all].
    + destruct (IH (RecordRaw.mk (self (io.Write (RecordRaw.W raw)
                                          (written k))))) as [-> ->].
      unfold to_read. now rewrite store_view.
    + destruct (IH raw) as [-> ->]. unfold to_read. now rewrite store_view.
Qed.
